(** * migrate_stories.py: parser, body transformer and emitter

    A shallow embedding of [src/migrate_stories.py] and the properties of
    its three parts: [parse_user_stories] (the line scanner building epics
    and stories), the acceptance-criteria rewriting inside [main], and
    [create_task_file] / [main] (identifier counter, file names, file
    text, the destination directory).

    Modelling conventions.
    - A Python [str] is a list of Unicode code points ([N]).
    - The cursor [i] of the scanning loops is the suffix [lines[i:]].
    - The destination directory is a finite map from file name to file
      text; a directory that does not exist yet is the empty map, which is
      what [os.makedirs] leaves behind.  Writes are assumed to succeed.
    - [datetime.datetime.now()] is a clock read once per written file. *)

From Stdlib Require Import NArith Ascii String DecimalString DecimalNat.
From stdpp Require Import gmap list strings.

Open Scope N_scope.

(** ** Python strings *)

Abbreviation str := (list N).

(** A literal of the source, as code points. *)
Definition py (s : string) : str :=
  (λ a, N_of_ascii a) <$> list_ascii_of_string s.

Definition NL : N := 10.

(** [Py_UNICODE_ISSPACE]: the characters removed by [str.strip()] and
    matched by [\s] in a [str] pattern. *)
Definition is_space (c : N) : bool :=
  ((9 <=? c) && (c <=? 13)) || ((28 <=? c) && (c <=? 32))
  || (c =? 133) || (c =? 160) || (c =? 5760)
  || ((8192 <=? c) && (c <=? 8202))
  || (c =? 8232) || (c =? 8233) || (c =? 8239) || (c =? 8287)
  || (c =? 12288).

Definition ascii_alnum (c : N) : bool :=
  ((48 <=? c) && (c <=? 57)) || ((65 <=? c) && (c <=? 90))
  || ((97 <=? c) && (c <=? 122)).

Fixpoint take_while (p : N → bool) (s : str) : str :=
  match s with
  | c :: s' => if p c then c :: take_while p s' else []
  | [] => []
  end.

Fixpoint drop_while (p : N → bool) (s : str) : str :=
  match s with
  | c :: s' => if p c then drop_while p s' else s
  | [] => []
  end.

(** [s.startswith(p)] *)
Fixpoint startswith (p s : str) : bool :=
  match p, s with
  | [], _ => true
  | a :: p', b :: s' => (a =? b) && startswith p' s'
  | _ :: _, [] => false
  end.

(** [s.endswith(p)] *)
Definition endswith (p s : str) : bool := startswith (reverse p) (reverse s).

(** [p in s] *)
Fixpoint contains (p s : str) : bool :=
  startswith p s ||
  match s with
  | _ :: s' => contains p s'
  | [] => false
  end.

(** [s.split('\n')] *)
Fixpoint split_nl (s : str) : list str :=
  match s with
  | [] => [[]]
  | c :: s' =>
      if c =? NL then [] :: split_nl s'
      else match split_nl s' with
           | w :: ws => (c :: w) :: ws
           | [] => [[c]]
           end
  end.

(** ['\n'.join(l)] *)
Fixpoint join_nl (l : list str) : str :=
  match l with
  | [] => []
  | [x] => x
  | x :: l' => x ++ NL :: join_nl l'
  end.

Definition lstrip (s : str) : str := drop_while is_space s.
Definition rstrip (s : str) : str := reverse (drop_while is_space (reverse s)).

(** [s.strip()] *)
Definition strip (s : str) : str := rstrip (lstrip s).

(** [s.replace(old, new, 1)] *)
Fixpoint replace_first (old new s : str) : str :=
  if startswith old s then new ++ drop (length old) s
  else match s with
       | c :: s' => c :: replace_first old new s'
       | [] => []
       end.

(** [str(n)] for a non-negative integer *)
Definition dec (n : nat) : str := py (NilEmpty.string_of_uint (Nat.to_uint n)).

(** ** Literals of the source *)

Definition H2 : str := Eval vm_compute in py "##".
Definition H3 : str := Eval vm_compute in py "###".
Definition US : str := Eval vm_compute in py "US-".
Definition COLON : N := 58.
Definition HYPHEN : N := 45.
Definition UNDERSCORE : N := 95.
Definition TOC : str := Eval vm_compute in py "Table of Contents".
Definition APPENDIX : str := Eval vm_compute in py "Appendix".
Definition AC_MARKER : str := Eval vm_compute in py "**Acceptance Criteria:**".
Definition AC_HEADING : str := Eval vm_compute in py "## Acceptance Criteria".
Definition BULLET : str := Eval vm_compute in py "- ".
Definition CHECKBOX : str := Eval vm_compute in py "- [ ] ".
Definition TO_DO : str := Eval vm_compute in py "To Do".
Definition EPIC_BODY : str :=
  Eval vm_compute in py "Parent Epic for related user stories.".
Definition TASK_PREFIX : str := Eval vm_compute in py "task-".
Definition MD_SUFFIX : str := Eval vm_compute in py ".md".

(** ** Data model *)

Record story := Story { id_code : str; title : str; content : list str }.
Record epic := Epic { name : str; stories : list story }.

Section Parser.

(** [Py_UNICODE_ISALNUM] outside ASCII: the table of the Unicode database
    the interpreter was built with. *)
Variable uni_alnum : N → bool.

(** [\w] in a [str] pattern *)
Definition is_word (c : N) : bool :=
  (if c <? 128 then ascii_alnum c else uni_alnum c) || (c =? UNDERSCORE).

(** [[\w-]] *)
Definition is_code_char (c : N) : bool := is_word c || (c =? HYPHEN).

Definition not_nl (c : N) : bool := negb (c =? NL).

(** [epic_match] of line 25: [re.match] with the pattern "two [#], then
    [\s+], then group 1 = any characters but a newline", returning
    group 1.  [\s+] is greedy and group 1 accepts whatever follows, so the
    first attempt succeeds as soon as one whitespace character follows the
    two markers. *)
Definition epic_match (line : str) : option str :=
  if startswith H2 line then
    match drop 2 line with
    | c :: r =>
        if is_space c then Some (take_while not_nl (drop_while is_space r))
        else None
    | [] => None
    end
  else None.

(** [story_match] of line 35: [re.match] with the pattern "three [#],
    [\s+], group 2 = [US-] and [[\w-]+], a colon, [\s+], group 3 = any
    characters but a newline", returning groups 2 and 3 (group 1, which
    spans both, is not read by the caller).  Giving back part of a greedy
    run never helps: the character wanted after the first [\s+] is [U],
    the one wanted after [[\w-]+] is the colon, and neither belongs to the
    class of the run before it. *)
Definition story_match (line : str) : option (str * str) :=
  if startswith H3 line then
    match drop 3 line with
    | c :: r =>
        if is_space c then
          let r1 := drop_while is_space r in
          if startswith US r1 then
            let r2 := drop 3 r1 in
            let code := take_while is_code_char r2 in
            match code, drop_while is_code_char r2 with
            | _ :: _, c3 :: c4 :: r4 =>
                if (c3 =? COLON) && is_space c4 then
                  Some (US ++ code,
                        take_while not_nl (drop_while is_space r4))
                else None
            | _, _ => None
            end
          else None
        else None
    | [] => None
    end
  else None.

(** [next_line.startswith('##') or next_line.startswith('###')] *)
Definition is_header (l : str) : bool := startswith H2 l || startswith H3 l.

(** The capture loop of lines 44-50 on its own: the lines it appends to
    the story and the cursor it stops at. *)
Fixpoint capture (rest : list str) : list str * list str :=
  match rest with
  | [] => ([], [])
  | next_line :: rest' =>
      if is_header next_line then ([], rest)
      else let '(c, r) := capture rest' in (next_line :: c, r)
  end.

(** Lines 25-26: the name of the epic a line opens, if it opens one. *)
Definition epic_heading (line : str) : option str :=
  match epic_match line with
  | Some g =>
      if negb (contains TOC line) && negb (contains APPENDIX line)
      then Some (strip g) else None
  | None => None
  end.

(** Lines 27-31: a new epic dictionary is appended to [epics] and becomes
    [current_epic].  Dictionaries are shared by reference; a reference is
    the position of the dictionary in [epics]. *)
Definition open_epic (line : str) (epics : list epic) (cur : option nat)
  : list epic * option nat :=
  match epic_heading line with
  | Some n => (epics ++ [Epic n []], Some (length epics))
  | None => (epics, cur)
  end.

(** [current_epic['stories'].append(story)] *)
Definition push_story (st : story) (e : epic) : epic :=
  Epic (name e) (stories e ++ [st]).

(** Lines 20-53.  The inner [fix] is the capture loop of lines 44-50; it
    leaves the cursor on the header that stopped it. *)
Fixpoint parse_loop (lines : list str) (epics : list epic)
    (current_epic : option nat) : list epic :=
  match lines with
  | [] => epics
  | line :: rest =>
      let '(epics, current_epic) := open_epic line epics current_epic in
      match story_match line, current_epic with
      | Some (code, ttl), Some r =>
          (fix capture (rest : list str) (acc : list str) : list epic :=
             match rest with
             | [] =>
                 alter (push_story (Story (strip code) (strip ttl) acc))
                       r epics
             | next_line :: rest' =>
                 if is_header next_line then
                   parse_loop rest
                     (alter (push_story (Story (strip code) (strip ttl) acc))
                            r epics)
                     current_epic
                 else capture rest' (acc ++ [next_line])
             end) rest []
      | _, _ => parse_loop rest epics current_epic
      end
  end.

Definition parse_lines (lines : list str) : list epic :=
  parse_loop lines [] None.

(** [parse_user_stories], given the text read from the file *)
Definition parse_user_stories (text : str) : list epic :=
  parse_lines (split_nl text).

End Parser.

(** ** Body transformer (lines 119-139 of [main]) *)

(** The loop of lines 127-137, with [processed_lines] as the result. *)
Fixpoint process_lines (in_ac_section : bool) (lines : list str) : list str :=
  match lines with
  | [] => []
  | line :: rest =>
      if contains AC_MARKER line then
        AC_HEADING :: process_lines true rest
      else if in_ac_section && startswith BULLET (strip line) then
        replace_first BULLET CHECKBOX line :: process_lines in_ac_section rest
      else
        line :: process_lines in_ac_section rest
  end.

(** [story_text] as passed to [create_task_file] *)
Definition story_body (content : list str) : str :=
  let story_text := strip (join_nl content) in
  join_nl (process_lines false (split_nl story_text)).

(** ** Emitter *)

Module Task.

(** The arguments of one call of [create_task_file]. *)
Record t := mk {
  task_id : nat;
  title : str;
  content : str;
  status : str;
  parent : option nat;
  is_epic : bool
}.

End Task.

(** The characters removed from a title by the substitution of line 60:
    backslash, slash, star, question mark, colon, double quote, angle
    brackets and bar. *)
Definition FORBIDDEN : list N := [92; 47; 42; 63; 58; 34; 60; 62; 124].

Definition filename_title (title : str) : str :=
  filter (λ c, c ∉ FORBIDDEN) title.

Definition filename (t : Task.t) : str :=
  TASK_PREFIX ++ dec (Task.task_id t) ++ py " - "
  ++ filename_title (Task.title t) ++ MD_SUFFIX.

(** [if parent:] is false for [None] and for [0]. *)
Definition parent_line (parent : option nat) : str :=
  match parent with
  | Some (S p) => py "parent: TASK-" ++ dec (S p) ++ [NL]
  | _ => []
  end.

(** Everything written between lines 67 and 86. *)
Definition file_text (created_date : str) (t : Task.t) : str :=
  py "---" ++ [NL]
  ++ py "id: TASK-" ++ dec (Task.task_id t) ++ [NL]
  ++ py "title: " ++ Task.title t ++ [NL]
  ++ py "status: " ++ Task.status t ++ [NL]
  ++ py "assignee: []" ++ [NL]
  ++ py "created_date: '" ++ created_date ++ py "'" ++ [NL]
  ++ (if Task.is_epic t then py "labels: ['Epic']" else py "labels: []")
  ++ [NL]
  ++ parent_line (Task.parent t)
  ++ py "dependencies: []" ++ [NL]
  ++ py "---" ++ [NL; NL]
  ++ Task.content t.

(** The destination directory, the number of clock readings so far, and
    the calls of [create_task_file] in order (a record of the run, not
    read by the program). *)
Record world := World {
  files : gmap (list N) (list N);
  ticks : nat;
  calls : list Task.t
}.

(** Lines 97-99: [f.startswith("task-") and f.endswith(".md")] *)
Definition is_generated (f : str) : bool :=
  startswith TASK_PREFIX f && endswith MD_SUFFIX f.

Definition clear (d : gmap (list N) (list N)) : gmap (list N) (list N) :=
  filter (λ kv, is_generated kv.1 = false) d.

Section Emitter.

Variable uni_alnum : N → bool.

(** [clock k] is what [now().strftime(...)] returns at the [k]-th reading. *)
Variable clock : nat → str.

Definition create_task_file (t : Task.t) (w : world) : nat * world :=
  (Task.task_id t,
   World (<[filename t := file_text (clock (ticks w)) t]> (files w))
         (S (ticks w))
         (calls w ++ [t])).

(** Lines 116-152 *)
Fixpoint emit_stories (epic_id : nat) (ss : list story) (task_counter : nat)
    (w : world) : nat * world :=
  match ss with
  | [] => (task_counter, w)
  | story :: ss' =>
      let story_id := task_counter in
      let story_text := story_body (content story) in
      let full_title := id_code story ++ 32 :: title story in
      let '(_, w) :=
        create_task_file
          (Task.mk story_id full_title story_text TO_DO (Some epic_id) false)
          w in
      emit_stories epic_id ss' (S task_counter) w
  end.

(** Lines 105-152 *)
Fixpoint emit_epics (epics : list epic) (task_counter : nat) (w : world)
  : nat * world :=
  match epics with
  | [] => (task_counter, w)
  | epic :: epics' =>
      let epic_id := task_counter in
      let '(_, w) :=
        create_task_file
          (Task.mk epic_id (name epic) EPIC_BODY TO_DO None true) w in
      let '(task_counter, w) :=
        emit_stories epic_id (stories epic) (S task_counter) w in
      emit_epics epics' task_counter w
  end.

(** [main], given the text of [SOURCE_FILE]. *)
Definition main (source : str) (w : world) : world :=
  let w := World (clear (files w)) (ticks w) (calls w) in
  let epics := parse_user_stories uni_alnum source in
  (emit_epics epics 1%nat w).2.

End Emitter.

(** ** The emission order, as the specification words it *)

(** The Epic file: identifier = current counter value, title = the
    epic's name, body = the fixed placeholder, epic marker = true. *)
Definition epic_task (epic_id : nat) (e : epic) : Task.t :=
  Task.mk epic_id (name e) EPIC_BODY TO_DO None true.

(** The Story file: identifier = current counter value, title = code,
    space, title; body = transformed text; parent = the epic. *)
Definition story_task (epic_id story_id : nat) (s : story) : Task.t :=
  Task.mk story_id (id_code s ++ 32 :: title s) (story_body (content s))
          TO_DO (Some epic_id) false.

Fixpoint story_tasks (epic_id counter : nat) (ss : list story) : list Task.t :=
  match ss with
  | [] => []
  | s :: ss' => story_task epic_id counter s :: story_tasks epic_id (S counter) ss'
  end.

(** Each Epic immediately followed by all of its Stories before the next
    Epic begins, one counter for all. *)
Fixpoint emission_order (counter : nat) (epics : list epic) : list Task.t :=
  match epics with
  | [] => []
  | e :: epics' =>
      epic_task counter e :: story_tasks counter (S counter) (stories e)
      ++ emission_order (S counter + length (stories e)) epics'
  end.

(** The files left by writing the tasks [ts] in order, the first one at
    clock reading [k]. *)
Fixpoint write_all (clock : nat → str) (k : nat) (ts : list Task.t)
    (d : gmap (list N) (list N)) : gmap (list N) (list N) :=
  match ts with
  | [] => d
  | t :: ts' => write_all clock (S k) ts' (<[filename t := file_text (clock k) t]> d)
  end.


(** ** Sample documents *)

Definition doc_alpha : str := Eval vm_compute in
  join_nl [py "## Alpha Epic"; py "### US-100: Do Thing"; [];
           py "**Acceptance Criteria:**"; py "- Works"].



Definition doc_indented : str := Eval vm_compute in
  join_nl [py "## Tools"; py "### US-7: Run it"; py "    x = 1"; py "    y = 2"].

(** ** The stories of one epic, as the specification words them *)

Section Windows.

Variable uni_alnum : N → bool.

(** Each story heading gives one story, whose content is every line that
    follows it up to the next heading of depth two or more. *)
Fixpoint story_windows (body : list str) : list story :=
  match body with
  | [] => []
  | l :: rest =>
      match story_match uni_alnum l with
      | Some (code, ttl) =>
          Story (strip code) (strip ttl) (capture rest).1 :: story_windows rest
      | None => story_windows rest
      end
  end.

End Windows.

(** What the emitter reads of an epic: its name and, for each story, the
    code, the title and the transformed body. *)
Definition rendered (e : epic) : str * list (str * str * str) :=
  (name e, (λ s, (id_code s, title s, story_body (content s))) <$> stories e).

(** * Properties *)

(** ** Strings *)

Lemma startswith_app p s : startswith p (p ++ s) = true.
Proof. induction p as [|a p IH]; simpl; [done|]. by rewrite N.eqb_refl. Qed.

Lemma startswith_inv p s : startswith p s = true → ∃ s', s = p ++ s'.
Proof.
  revert s. induction p as [|a p IH]; intros s H; simpl in *; [by eexists|].
  destruct s as [|b s]; [done|].
  apply andb_true_iff in H as [Hab H]. apply N.eqb_eq in Hab as ->.
  destruct (IH _ H) as [s' ->]. by eexists.
Qed.

Lemma startswith_drop p s : startswith p s = true → s = p ++ drop (length p) s.
Proof.
  intros [s' ->]%startswith_inv. by rewrite drop_app_length.
Qed.

Lemma contains_unfold p s :
  contains p s =
  startswith p s || match s with _ :: s' => contains p s' | [] => false end.
Proof. by destruct s. Qed.

Lemma contains_app a p b : contains p (a ++ p ++ b) = true.
Proof.
  induction a as [|c a IH]; simpl.
  - by rewrite contains_unfold, startswith_app.
  - rewrite IH. apply orb_true_r.
Qed.

Lemma contains_inv p s : contains p s = true → ∃ a b, s = a ++ p ++ b.
Proof.
  induction s as [|c s IH]; simpl; intros H.
  - rewrite orb_false_r in H. apply startswith_inv in H as [s' ->].
    by exists [], s'.
  - apply orb_true_iff in H as [H|H].
    + apply startswith_inv in H as [s' ->]. by exists [], s'.
    + destruct (IH H) as (a & b & ->). by exists (c :: a), b.
Qed.

Lemma split_nl_nonempty s : split_nl s ≠ [].
Proof.
  destruct s as [|c s]; simpl; [done|].
  destruct (c =? NL); [done|]. by destruct (split_nl s).
Qed.

Lemma split_nl_cons c s :
  c ≠ NL → ∃ w ws, split_nl s = w :: ws ∧ split_nl (c :: s) = (c :: w) :: ws.
Proof.
  intros Hc. simpl. apply N.eqb_neq in Hc as ->.
  destruct (split_nl s) as [|w ws] eqn:E; [by apply split_nl_nonempty in E|].
  by exists w, ws.
Qed.

(** Splitting distributes over a newline. *)
Lemma split_nl_app x y : split_nl (x ++ NL :: y) = split_nl x ++ split_nl y.
Proof.
  induction x as [|c x IH]; simpl; [done|].
  destruct (c =? NL); [by rewrite IH|].
  rewrite IH. destruct (split_nl x) eqn:E; [by apply split_nl_nonempty in E|done].
Qed.

Lemma split_nl_no_nl s : NL ∉ s → split_nl s = [s].
Proof.
  induction s as [|c s IH]; intros H; simpl; [done|].
  apply not_elem_of_cons in H as [Hc Hs].
  apply not_eq_sym, N.eqb_neq in Hc. rewrite Hc, IH; done.
Qed.


Lemma split_nl_join l : Forall (λ x, NL ∉ x) l → l ≠ [] → split_nl (join_nl l) = l.
Proof.
  induction 1 as [|x l Hx Hl IH]; intros Hne; [done|].
  destruct l as [|y l]; simpl.
  - by apply split_nl_no_nl.
  - rewrite split_nl_app, split_nl_no_nl by done. simpl. f_equal. by apply IH.
Qed.


Lemma join_nl_cons x y l : join_nl (x :: y :: l) = x ++ NL :: join_nl (y :: l).
Proof. done. Qed.

Lemma join_nl_app l1 x l2 :
  join_nl (l1 ++ x :: l2) =
  (if l1 is [] then [] else join_nl l1 ++ [NL]) ++ join_nl (x :: l2).
Proof.
  induction l1 as [|a l1 IH]; [done|].
  destruct l1 as [|b l1].
  - simpl. by rewrite <- app_assoc.
  - change ((a :: b :: l1) ++ x :: l2) with (a :: (b :: l1) ++ x :: l2).
    cbn [app]. rewrite !join_nl_cons. cbn [app] in IH. rewrite IH.
    by rewrite <- !app_assoc.
Qed.

Lemma drop_while_app p u c r :
  p c = false → drop_while p (u ++ c :: r) = drop_while p u ++ c :: r.
Proof.
  intros Hc. induction u as [|a u IH]; simpl; [by rewrite Hc|].
  by destruct (p a).
Qed.

Lemma drop_while_suffix p s : ∃ u, s = u ++ drop_while p s ∧ Forall (λ c, p c = true) u.
Proof.
  induction s as [|c s (u & E & Hu)]; simpl; [by exists []|].
  destruct (p c) eqn:Hc; [|by exists []].
  exists (c :: u). split; [simpl; by f_equal | by constructor].
Qed.

Lemma drop_while_all p s : Forall (λ c, p c = true) s → drop_while p s = [].
Proof. induction 1 as [|c s Hc _ IH]; simpl; [done|]. by rewrite Hc. Qed.

Lemma take_drop_while p s : take_while p s ++ drop_while p s = s.
Proof.
  induction s as [|c s IH]; simpl; [done|]. destruct (p c); simpl; [by rewrite IH|done].
Qed.

Lemma lstrip_app u c r : is_space c = false → lstrip (u ++ c :: r) = lstrip u ++ c :: r.
Proof. apply drop_while_app. Qed.

Lemma rstrip_app u c v : is_space c = false → rstrip (u ++ c :: v) = u ++ c :: rstrip v.
Proof.
  intros Hc. unfold rstrip.
  rewrite reverse_app, reverse_cons, <- app_assoc. simpl.
  rewrite drop_while_app by done.
  rewrite reverse_app, reverse_cons, !reverse_involutive, <- app_assoc. done.
Qed.

Lemma rstrip_prefix s : ∃ v, s = rstrip s ++ v ∧ Forall (λ c, is_space c = true) v.
Proof.
  unfold rstrip. destruct (drop_while_suffix is_space (reverse s)) as (u & E & Hu).
  exists (reverse u). split.
  - rewrite <- reverse_app, <- E. by rewrite reverse_involutive.
  - by apply Forall_reverse.
Qed.

(** Stripping text whose middle part [c1 :: mid ++ [c2]] starts and ends
    with characters that are not whitespace leaves that part in place. *)
Lemma strip_middle u c1 mid c2 v :
  is_space c1 = false → is_space c2 = false →
  strip (u ++ c1 :: mid ++ c2 :: v) = lstrip u ++ c1 :: mid ++ c2 :: rstrip v.
Proof.
  intros H1 H2. unfold strip. rewrite lstrip_app by done.
  replace (lstrip u ++ c1 :: mid ++ c2 :: v) with ((lstrip u ++ c1 :: mid) ++ c2 :: v)
    by (by rewrite <- app_assoc).
  rewrite rstrip_app by done. by rewrite <- app_assoc.
Qed.

(** ** Body transformer *)

Lemma join_nl_cons_tail x l :
  join_nl (x :: l) = x ++ (if l is [] then [] else NL :: join_nl l).
Proof. destruct l; [by rewrite app_nil_r|done]. Qed.



Lemma replace_first_unfold old new s :
  replace_first old new s =
  if startswith old s then new ++ drop (length old) s
  else match s with
       | c :: s' => c :: replace_first old new s'
       | [] => []
       end.
Proof. by destruct s. Qed.



Lemma process_lines_app b l1 l2 :
  process_lines b (l1 ++ l2)
  = process_lines b l1
    ++ process_lines (b || existsb (contains AC_MARKER) l1) l2.
Proof.
  revert b. induction l1 as [|l l1 IH]; intros b; cbn [app process_lines existsb].
  - by rewrite orb_false_r.
  - destruct (contains AC_MARKER l) eqn:E; cbn [orb].
    + rewrite IH. by rewrite orb_true_r.
    + destruct (b && startswith BULLET (strip l)); by rewrite IH.
Qed.

Lemma process_lines_marker b m rest :
  contains AC_MARKER m = true →
  process_lines b (m :: rest) = AC_HEADING :: process_lines true rest.
Proof. intros H. cbn [process_lines]. by rewrite H. Qed.

Lemma process_lines_length b l : length (process_lines b l) = length l.
Proof.
  revert b. induction l as [|x l IH]; intros b; cbn [process_lines]; [done|].
  destruct (contains AC_MARKER x); [|destruct (b && _)]; simpl; by rewrite IH.
Qed.


(** ** Parser *)

Section ParserFacts.

Variable uni_alnum : N → bool.

Lemma capture_app_decompose rest :
  rest = (capture rest).1 ++ (capture rest).2
  ∧ Forall (λ l, is_header l = false) (capture rest).1
  ∧ (length (capture rest).2 ≤ length rest)%nat.
Proof.
  induction rest as [|l rest (E & Hc & Hl)]; simpl; [by auto|].
  destruct (is_header l) eqn:Hh; simpl; [by auto|].
  destruct (capture rest) as [c r]; simpl in *.
  split_and!; [by f_equal | by constructor | lia].
Qed.

Lemma capture_header l rest : is_header l = true → capture (l :: rest) = ([], l :: rest).
Proof. intros H. simpl. by rewrite H. Qed.

Lemma capture_no_header a b :
  Forall (λ l, is_header l = false) a →
  capture (a ++ b) = (a ++ (capture b).1, (capture b).2).
Proof.
  induction 1 as [|l a Hl _ IH]; simpl; [by destruct (capture b)|].
  by rewrite Hl, IH.
Qed.

Lemma capture_app_l a b :
  (capture a).2 ≠ [] → capture (a ++ b) = ((capture a).1, (capture a).2 ++ b).
Proof.
  induction a as [|l a IH]; simpl; [done|].
  destruct (is_header l); [done|].
  destruct (capture a) as [c r]; simpl in *. intros Hr. by rewrite IH.
Qed.

Lemma capture_all a : (capture a).2 = [] → Forall (λ l, is_header l = false) a.
Proof.
  intros H. destruct (capture_app_decompose a) as (E & Hc & _).
  rewrite H, app_nil_r in E. by rewrite E.
Qed.

(** One turn of the outer loop. *)
Lemma parse_loop_cons line rest epics cur :
  parse_loop uni_alnum (line :: rest) epics cur =
  match story_match uni_alnum line, (open_epic line epics cur).2 with
  | Some (code, ttl), Some r =>
      parse_loop uni_alnum (capture rest).2
        (alter (push_story (Story (strip code) (strip ttl) (capture rest).1))
               r (open_epic line epics cur).1)
        (Some r)
  | _, _ =>
      parse_loop uni_alnum rest (open_epic line epics cur).1 (open_epic line epics cur).2
  end.
Proof.
  cbn [parse_loop]. destruct (open_epic line epics cur) as [epics1 cur1].
  cbn [fst snd].
  destruct (story_match uni_alnum line) as [[code ttl]|]; [|done].
  destruct cur1 as [r|]; [|done].
  match goal with |- ?f rest [] = _ => set (F := f) end.
  enough (∀ acc, F rest acc =
    parse_loop uni_alnum (capture rest).2
      (alter (push_story (Story (strip code) (strip ttl)
                                (acc ++ (capture rest).1))) r epics1)
      (Some r)) as H by apply (H []).
  induction rest as [|l rest IH]; intros acc.
  - simpl. by rewrite app_nil_r.
  - cbn -[parse_loop alter strip is_header].
    destruct (is_header l) eqn:Hh.
    + cbn [fst snd]. by rewrite app_nil_r.
    + fold F. rewrite IH. destruct (capture rest) as [c r']. cbn [fst snd].
      by rewrite <- app_assoc.
Qed.

Lemma story_match_h3 l x : story_match uni_alnum l = Some x → startswith H3 l = true.
Proof. unfold story_match. by destruct (startswith H3 l). Qed.

Lemma epic_match_h2 l g :
  epic_match l = Some g →
  ∃ c r, l = H2 ++ c :: r ∧ is_space c = true.
Proof.
  unfold epic_match. destruct (startswith H2 l) eqn:E; [|done].
  apply startswith_inv in E as [l' ->].
  destruct l' as [|c r]; simpl; [done|]. destruct (is_space c) eqn:Hc; [|done].
  intros _. by exists c, r.
Qed.

Lemma story_match_header l x : story_match uni_alnum l = Some x → is_header l = true.
Proof.
  intros H%story_match_h3. unfold is_header. rewrite H. apply orb_true_r.
Qed.

Lemma epic_match_header l g : epic_match l = Some g → is_header l = true.
Proof. intros (c & r & -> & _)%epic_match_h2. done. Qed.

Lemma epic_heading_header l n : epic_heading l = Some n → is_header l = true.
Proof.
  unfold epic_heading. destruct (epic_match l) eqn:E; [|done].
  intros _. by eapply epic_match_header.
Qed.

(** The two patterns are disjoint: the third character is whitespace for
    one and a marker for the other. *)
Lemma epic_match_not_story l g : epic_match l = Some g → story_match uni_alnum l = None.
Proof.
  intros (c & r & -> & Hc)%epic_match_h2. unfold story_match.
  destruct (startswith H3 (H2 ++ c :: r)) eqn:E; [|done].
  unfold H2, H3 in E. cbn [startswith app] in E.
  apply andb_true_iff in E as [_ E]. apply andb_true_iff in E as [_ E].
  apply andb_true_iff in E as [E _]. apply N.eqb_eq in E as <-.
  by vm_compute in Hc.
Qed.

Lemma story_match_not_epic l x : story_match uni_alnum l = Some x → epic_heading l = None.
Proof.
  intros H. unfold epic_heading. destruct (epic_match l) eqn:E; [|done].
  apply epic_match_not_story in E. congruence.
Qed.

Lemma open_epic_none l epics cur :
  epic_heading l = None → open_epic l epics cur = (epics, cur).
Proof. unfold open_epic. by intros ->. Qed.

Lemma open_epic_some l n epics cur :
  epic_heading l = Some n →
  open_epic l epics cur = (epics ++ [Epic n []], Some (length epics)).
Proof. unfold open_epic. by intros ->. Qed.

Lemma omap_epic_heading_no_header c :
  Forall (λ l, is_header l = false) c → omap epic_heading c = [].
Proof.
  induction 1 as [|l c Hl _ IH]; [done|]. simpl.
  destruct (epic_heading l) eqn:E; [|done].
  apply epic_heading_header in E. congruence.
Qed.

Lemma names_alter_push st r (epics : list epic) :
  name <$> alter (push_story st) r epics = name <$> epics.
Proof.
  revert r. induction epics as [|e epics IH]; intros [|r]; simpl; [done..|].
  f_equal. apply IH.
Qed.

(** The parser opens one epic per line that [epic_heading] accepts, in
    the order of the lines: no such line is ever swallowed by a story. *)
Lemma parse_loop_names lines epics cur :
  name <$> parse_loop uni_alnum lines epics cur
  = (name <$> epics) ++ omap epic_heading lines.
Proof.
  remember (length lines) as n eqn:Hn.
  assert (length lines ≤ n)%nat as Hle by lia. clear Hn.
  revert lines epics cur Hle.
  induction n as [|n IH]; intros [|l rest] epics cur Hle; simpl in Hle;
    try lia; try by rewrite app_nil_r.
  rewrite parse_loop_cons.
  assert (name <$> (open_epic l epics cur).1 =
          (name <$> epics) ++ from_option (λ x, [x]) [] (epic_heading l)) as E1.
  { unfold open_epic. destruct (epic_heading l); simpl.
    - by rewrite fmap_app.
    - by rewrite app_nil_r. }
  assert (omap epic_heading (l :: rest) =
          from_option (λ x, [x]) [] (epic_heading l) ++ omap epic_heading rest)
    as E2 by (simpl; by destruct (epic_heading l)).
  rewrite E2, app_assoc, <- E1.
  destruct (story_match uni_alnum l) as [[code ttl]|]; [|apply IH; lia].
  destruct (open_epic l epics cur).2; [|apply IH; lia].
  destruct (capture_app_decompose rest) as (E & Hc & Hlen).
  rewrite IH by lia. rewrite names_alter_push. f_equal.
  transitivity (omap epic_heading ((capture rest).1 ++ (capture rest).2));
    [|by rewrite <- E].
  by rewrite omap_app, (omap_epic_heading_no_header _ Hc).
Qed.

Lemma parse_lines_names lines :
  name <$> parse_lines uni_alnum lines = omap epic_heading lines.
Proof. apply parse_loop_names. Qed.

(** With no epic open, a line that opens none leaves the state as it is. *)
Lemma parse_loop_skip l rest epics :
  epic_heading l = None →
  parse_loop uni_alnum (l :: rest) epics None = parse_loop uni_alnum rest epics None.
Proof.
  intros H. rewrite parse_loop_cons, open_epic_none by done. simpl.
  by destruct (story_match uni_alnum l) as [[??]|].
Qed.

Lemma parse_loop_skip_all pre rest epics :
  Forall (λ l, epic_heading l = None) pre →
  parse_loop uni_alnum (pre ++ rest) epics None = parse_loop uni_alnum rest epics None.
Proof.
  induction 1 as [|l pre Hl _ IH]; [done|]. simpl app.
  by rewrite parse_loop_skip.
Qed.

(** A level-2 heading that is excluded leaves the state as it is. *)
Lemma parse_loop_excluded h g rest epics cur :
  epic_match h = Some g → epic_heading h = None →
  parse_loop uni_alnum (h :: rest) epics cur = parse_loop uni_alnum rest epics cur.
Proof.
  intros Hm Hh. rewrite parse_loop_cons, open_epic_none by done.
  by rewrite (epic_match_not_story _ _ Hm).
Qed.

(** Deleting a header that changes nothing by itself, in front of another
    header, changes nothing at all: the capture windows end where they
    ended. *)
Lemma parse_loop_delete_header pre h s post epics cur :
  is_header h = true → is_header s = true →
  (∀ epics cur, parse_loop uni_alnum (h :: s :: post) epics cur
                = parse_loop uni_alnum (s :: post) epics cur) →
  parse_loop uni_alnum (pre ++ h :: s :: post) epics cur
  = parse_loop uni_alnum (pre ++ s :: post) epics cur.
Proof.
  intros Hh Hs Hdel.
  remember (length pre) as n eqn:Hn.
  assert (length pre ≤ n)%nat as Hle by lia. clear Hn.
  revert pre epics cur Hle.
  induction n as [|n IH]; intros [|l pre] epics cur Hle; simpl in Hle;
    try lia; try apply Hdel.
  simpl app. rewrite !parse_loop_cons.
  destruct (story_match uni_alnum l) as [[code ttl]|]; [|apply IH; lia].
  destruct (open_epic l epics cur).2; [|apply IH; lia].
  destruct (capture_app_decompose pre) as (E & Hc & Hlen).
  destruct (capture pre).2 as [|x rem] eqn:Hrem.
  - rewrite app_nil_r in E. rewrite <- E in Hc.
    rewrite !capture_no_header by done.
    rewrite !capture_header by done. simpl. apply Hdel.
  - rewrite !capture_app_l by (by rewrite Hrem). rewrite Hrem. simpl.
    apply (IH (x :: rem)). simpl in *. lia.
Qed.

(** The two patterns on sample lines (the comment lines 24 and 34 of the
    source give the first of each). *)
Example epic_match_samples :
  epic_match (py "## CLI Interface Epic") = Some (py "CLI Interface Epic")
  ∧ epic_match (py "##   Spaced  ") = Some (py "Spaced  ")
  ∧ epic_match (py "##NoSpace") = None
  ∧ epic_match (py "### US-1: Level three") = None
  ∧ epic_match (py "# Title") = None
  ∧ epic_heading (py "## Appendix B: Glossary") = None
  ∧ epic_heading (py "## table of contents") = Some (py "table of contents").
Proof. by vm_compute. Qed.

Example story_match_samples :
  story_match uni_alnum (py "### US-CLI-01: Parse Command Line Arguments")
  = Some (py "US-CLI-01", py "Parse Command Line Arguments")
  ∧ story_match uni_alnum (py "### US-1:  Padded title ")
    = Some (py "US-1", py "Padded title ")
  ∧ story_match uni_alnum (py "### US-1:NoSpace") = None
  ∧ story_match uni_alnum (py "### US-: Empty code") = None
  ∧ story_match uni_alnum (py "### Story 1: No code") = None
  ∧ story_match uni_alnum (py "###US-1: No space") = None
  ∧ story_match uni_alnum (py "#### US-1: Level four") = None.
Proof. by vm_compute. Qed.

End ParserFacts.

(** ** Emitter *)

Section EmitterFacts.

Variable uni_alnum : N → bool.
Variable clock : nat → str.

Lemma write_all_app k a b d :
  write_all clock k (a ++ b) d
  = write_all clock (k + length a) b (write_all clock k a d).
Proof.
  revert k d. induction a as [|t a IH]; intros k d; simpl.
  - by rewrite Nat.add_0_r.
  - rewrite IH. f_equal. lia.
Qed.

Lemma story_tasks_length e c ss : length (story_tasks e c ss) = length ss.
Proof. revert c. induction ss as [|s ss IH]; intros c; simpl; [done|]. by rewrite IH. Qed.

Lemma emit_stories_spec epic_id ss c w :
  emit_stories clock epic_id ss c w =
  ((c + length ss)%nat,
   World (write_all clock (ticks w) (story_tasks epic_id c ss) (files w))
         (ticks w + length ss)
         (calls w ++ story_tasks epic_id c ss)).
Proof.
  revert c w. induction ss as [|s ss IH]; intros c [fs k log]; simpl.
  - by rewrite !Nat.add_0_r, app_nil_r.
  - rewrite IH. simpl. rewrite <- app_assoc. simpl.
    repeat f_equal; lia.
Qed.

Lemma emit_epics_spec es c w :
  emit_epics clock es c w =
  ((c + length (emission_order c es))%nat,
   World (write_all clock (ticks w) (emission_order c es) (files w))
         (ticks w + length (emission_order c es))
         (calls w ++ emission_order c es)).
Proof.
  revert c w. induction es as [|e es IH]; intros c [fs k log]; simpl.
  - by rewrite !Nat.add_0_r, app_nil_r.
  - rewrite emit_stories_spec. simpl. rewrite IH. simpl.
    rewrite length_app, story_tasks_length, write_all_app, story_tasks_length.
    rewrite <- !app_assoc. simpl.
    f_equal; [lia|]. f_equal; try done; lia.
Qed.

(** The run of [main]: the directory is cleared, then the tasks of the
    parsed epics are written in emission order, counting from 1. *)
Lemma main_spec source w :
  let T := emission_order 1 (parse_user_stories uni_alnum source) in
  main uni_alnum clock source w =
  World (write_all clock (ticks w) T (clear (files w)))
        (ticks w + length T) (calls w ++ T).
Proof. unfold main. by rewrite emit_epics_spec. Qed.

Lemma story_tasks_ids e c ss : Task.task_id <$> story_tasks e c ss = seq c (length ss).
Proof. revert c. induction ss as [|s ss IH]; intros c; simpl; [done|]. by rewrite IH. Qed.

Lemma emission_order_ids c es :
  Task.task_id <$> emission_order c es = seq c (length (emission_order c es)).
Proof.
  revert c. induction es as [|e es IH]; intros c; simpl; [done|].
  rewrite fmap_app, story_tasks_ids, IH, length_app, story_tasks_length.
  f_equal. by rewrite seq_app.
Qed.

Lemma emission_order_app c es1 es2 :
  emission_order c (es1 ++ es2)
  = emission_order c es1
    ++ emission_order (c + length (emission_order c es1)) es2.
Proof.
  revert c. induction es1 as [|e es1 IH]; intros c; simpl.
  - by rewrite Nat.add_0_r.
  - rewrite IH, <- app_assoc, length_app, story_tasks_length.
    do 3 f_equal. f_equal. lia.
Qed.



Lemma story_tasks_parent e c ss :
  Forall (λ t, Task.parent t = Some e ∧ Task.is_epic t = false)
         (story_tasks e c ss).
Proof. revert c. induction ss; intros c; simpl; by constructor. Qed.

Lemma is_generated_filename t : is_generated (filename t) = true.
Proof.
  unfold is_generated, filename. rewrite startswith_app. cbn [andb].
  unfold endswith. rewrite !app_assoc, reverse_app. apply startswith_app.
Qed.


Lemma clear_other d f : is_generated f = false → clear d !! f = d !! f.
Proof.
  intros Hf. unfold clear. rewrite map_lookup_filter.
  destruct (d !! f) as [x|]; simpl; [|done]. by rewrite option_guard_True.
Qed.


Lemma write_all_other k ts d f :
  is_generated f = false → write_all clock k ts d !! f = d !! f.
Proof.
  intros Hf. revert k d. induction ts as [|t ts IH]; intros k d; simpl; [done|].
  rewrite IH. apply lookup_insert_ne. intros E.
  rewrite <- E, is_generated_filename in Hf. done.
Qed.

End EmitterFacts.



(** ** The claims *)


(** C2.  One counter numbers all files: the identifiers of the calls of a
    run are 1, 2, 3, ... in emission order.  For each epic [e] of the
    parsed document, its Epic file has some identifier [N], the files
    written before it have smaller identifiers, its Story files follow at
    once with the identifiers [N+1 .. N+k] and parent [N], and whatever is
    written later (the next epic first) has an identifier above [N+k]. *)
Theorem identifiers_follow_emission_order
    (uni_alnum : N → bool) (clock : nat → str) (source : str) (w : world) :
  ∃ T,
    calls (main uni_alnum clock source w) = calls w ++ T
    ∧ T = emission_order 1 (parse_user_stories uni_alnum source)
    ∧ Task.task_id <$> T = seq 1 (length T)
    ∧ ∀ pre e post,
        parse_user_stories uni_alnum source = pre ++ e :: post →
        ∃ Tpre Tpost,
          let N := S (length Tpre) in
          let k := length (stories e) in
          T = Tpre ++ epic_task N e :: story_tasks N (S N) (stories e) ++ Tpost
          ∧ Task.task_id <$> story_tasks N (S N) (stories e) = seq (S N) k
          ∧ Forall (λ t, Task.parent t = Some N ∧ Task.is_epic t = false
                         ∧ (N < Task.task_id t ≤ N + k)%nat)
                   (story_tasks N (S N) (stories e))
          ∧ Forall (λ t, (Task.task_id t < N)%nat) Tpre
          ∧ Forall (λ t, (N + k < Task.task_id t)%nat) Tpost.
Proof.
  eexists. split; [by rewrite main_spec|]. split; [done|].
  split; [apply emission_order_ids|].
  intros pre e post ->.
  set (Tpre := emission_order 1 pre).
  exists Tpre, (emission_order (S (S (length Tpre)) + length (stories e)) post).
  cbn zeta. rewrite emission_order_app. fold Tpre. cbn [emission_order].
  replace (1 + length Tpre)%nat with (S (length Tpre)) by lia.
  split_and!.
  - done.
  - apply story_tasks_ids.
  - apply Forall_forall. intros t Ht.
    pose proof (story_tasks_parent (S (length Tpre)) (S (S (length Tpre))) (stories e)) as Hp.
    rewrite Forall_forall in Hp. destruct (Hp _ Ht) as [-> ->].
    split_and!; [done..| |].
    + apply (list_elem_of_fmap_2 Task.task_id) in Ht.
      rewrite story_tasks_ids, elem_of_seq in Ht. lia.
    + apply (list_elem_of_fmap_2 Task.task_id) in Ht.
      rewrite story_tasks_ids, elem_of_seq in Ht. lia.
  - apply Forall_forall. intros t Ht.
    apply (list_elem_of_fmap_2 Task.task_id) in Ht. unfold Tpre in Ht.
    rewrite emission_order_ids, elem_of_seq in Ht. fold Tpre in Ht. lia.
  - apply Forall_forall. intros t Ht.
    apply (list_elem_of_fmap_2 Task.task_id) in Ht.
    rewrite emission_order_ids, elem_of_seq in Ht. lia.
Qed.



(** C6 at the failing input: a story whose body is two lines indented by
    four spaces.  The first line loses its indentation, the second keeps
    it; the same happens to trailing blanks of the last line. *)
Theorem strip_removes_indentation (uni_alnum : N → bool) (clock : nat → str) :
  story_body [py "    x = 1"; py "    y = 2"]
  = join_nl [py "x = 1"; py "    y = 2"]
  ∧ story_body [py "x = 1"; py "y = 2  "; []]
    = join_nl [py "x = 1"; py "y = 2"]
  ∧ Task.content <$> calls (main uni_alnum clock doc_indented (World ∅ 0 []))
    = [EPIC_BODY; join_nl [py "x = 1"; py "    y = 2"]].
Proof.
  split_and!; [by vm_compute..|].
  rewrite main_spec. by vm_compute.
Qed.



(** C7.  For a level-2 heading line, no epic is opened exactly when the
    line contains [Table of Contents] or [Appendix]: with one of them the
    epics of the document are those of the document without the line,
    whatever else the line says; with neither, the line contributes its
    own epic, in place. *)
Theorem excluded_headings_open_no_epic
    (uni_alnum : N → bool) (text line g : str) (pre post : list str) :
  split_nl text = pre ++ line :: post →
  epic_match line = Some g →
  (epic_heading line = None
   ↔ contains TOC line = true ∨ contains APPENDIX line = true)
  ∧ (contains TOC line = true ∨ contains APPENDIX line = true →
     name <$> parse_user_stories uni_alnum text
     = name <$> parse_lines uni_alnum (pre ++ post))
  ∧ (contains TOC line = false → contains APPENDIX line = false →
     name <$> parse_user_stories uni_alnum text
     = (name <$> parse_lines uni_alnum pre)
       ++ strip g :: (name <$> parse_lines uni_alnum post)).
Proof.
  intros Ht Hg. unfold parse_user_stories. rewrite Ht.
  rewrite !parse_lines_names, !omap_app.
  assert (epic_heading line =
          if negb (contains TOC line) && negb (contains APPENDIX line)
          then Some (strip g) else None) as Heh
    by (unfold epic_heading; by rewrite Hg).
  change (omap epic_heading (line :: post))
    with (match epic_heading line with
          | Some y => y :: omap epic_heading post
          | None => omap epic_heading post
          end).
  rewrite Heh.
  destruct (contains TOC line), (contains APPENDIX line); cbn [negb andb];
    (split_and!; [split; [auto|done] | done | done]) ||
    (split_and!; [split; [done|intros [?|?]; done] | intros [?|?]; done | done]).
Qed.

Lemma excluded_headings_open_no_epic_witness :
  name <$> parse_user_stories (λ _, false)
             (join_nl [py "## Intro"; py "## Table of Contents"; py "## Usage"])
  = [py "Intro"; py "Usage"].
Proof.
  refine (eq_trans (proj1 (proj2
    (excluded_headings_open_no_epic (λ _, false)
       (join_nl [py "## Intro"; py "## Table of Contents"; py "## Usage"])
       (py "## Table of Contents") (py "Table of Contents")
       [py "## Intro"] [py "## Usage"] _ _)) _) _).
  - by vm_compute.
  - by vm_compute.
  - left. by vm_compute.
  - by vm_compute.
Defined.

(** C9.  A story heading met while no epic has been opened is passed
    over: the state of the scan is what it was, the scan goes on with the
    next line, and the document parses as the lines after the heading
    parse on their own. *)
Theorem orphan_story_is_skipped
    (uni_alnum : N → bool) (text h code ttl : str) (pre post : list str) :
  split_nl text = pre ++ h :: post →
  Forall (λ l, epic_heading l = None) pre →
  story_match uni_alnum h = Some (code, ttl) →
  parse_user_stories uni_alnum text = parse_lines uni_alnum post
  ∧ ∀ epics, parse_loop uni_alnum (h :: post) epics None
             = parse_loop uni_alnum post epics None.
Proof.
  intros Ht Hpre Hh. apply story_match_not_epic in Hh as Hn. split.
  - unfold parse_user_stories, parse_lines. rewrite Ht.
    rewrite parse_loop_skip_all by done. by apply parse_loop_skip.
  - intros epics. by apply parse_loop_skip.
Qed.

Lemma orphan_story_is_skipped_witness :
  parse_user_stories (λ _, false)
    (join_nl [py "intro"; py "### US-1: Orphan"; py "lost";
              py "## Epic"; py "### US-2: Kept"; py "body"])
  = [Epic (py "Epic") [Story (py "US-2") (py "Kept") [py "body"]]].
Proof.
  refine (eq_trans (proj1
    (orphan_story_is_skipped (λ _, false)
       (join_nl [py "intro"; py "### US-1: Orphan"; py "lost";
                 py "## Epic"; py "### US-2: Kept"; py "body"])
       (py "### US-1: Orphan") (py "US-1") (py "Orphan")
       [py "intro"]
       [py "lost"; py "## Epic"; py "### US-2: Kept"; py "body"] _ _ _)) _).
  - by vm_compute.
  - repeat constructor.
  - by vm_compute.
  - by vm_compute.
Defined.

(** C10.  An excluded level-2 heading [h] leaves [epics] and
    [current_epic] as they were.  A story heading [s] right after it is
    appended to the epic [current_epic] refers to, with the lines up to
    the next header as content; the document parses as it does without
    [h]; and when the line before [h] opened an epic, that epic receives
    the story. *)
Theorem excluded_heading_keeps_epic_open
    (uni_alnum : N → bool) (h g s code ttl : str) (pre post : list str) :
  epic_match h = Some g →
  contains TOC h = true ∨ contains APPENDIX h = true →
  story_match uni_alnum s = Some (code, ttl) →
  let st := Story (strip code) (strip ttl) (capture post).1 in
  (∀ rest epics cur,
     parse_loop uni_alnum (h :: rest) epics cur
     = parse_loop uni_alnum rest epics cur)
  ∧ (∀ epics r,
       parse_loop uni_alnum (h :: s :: post) epics (Some r)
       = parse_loop uni_alnum (capture post).2
           (alter (push_story st) r epics) (Some r))
  ∧ parse_lines uni_alnum (pre ++ h :: s :: post)
    = parse_lines uni_alnum (pre ++ s :: post)
  ∧ (∀ e n epics cur,
       epic_heading e = Some n →
       parse_loop uni_alnum (e :: h :: s :: post) epics cur
       = parse_loop uni_alnum (capture post).2
           (epics ++ [Epic n [st]]) (Some (length epics))).
Proof.
  intros Hg Hex Hs st.
  assert (epic_heading h = None) as Hn.
  { unfold epic_heading. rewrite Hg. by destruct Hex as [-> | ->]; [|rewrite andb_false_r]. }
  assert (∀ rest epics cur,
     parse_loop uni_alnum (h :: rest) epics cur
     = parse_loop uni_alnum rest epics cur) as Hskip
    by (intros; by eapply parse_loop_excluded).
  assert (∀ epics r,
       parse_loop uni_alnum (h :: s :: post) epics (Some r)
       = parse_loop uni_alnum (capture post).2
           (alter (push_story st) r epics) (Some r)) as Hatt.
  { intros epics r. rewrite Hskip, parse_loop_cons, Hs.
    by rewrite open_epic_none by by eapply story_match_not_epic. }
  split_and!; [done..| |].
  - apply parse_loop_delete_header; [by eapply epic_match_header| |by auto].
    by eapply story_match_header.
  - intros e n epics cur He. rewrite parse_loop_cons, (open_epic_some _ _ _ _ He).
    cbn [fst snd].
    assert (story_match uni_alnum e = None) as ->.
    { unfold epic_heading in He. destruct (epic_match e) eqn:E; [|done].
      by eapply epic_match_not_story. }
    rewrite Hatt. f_equal.
    rewrite <- (Nat.add_0_r (length epics)) at 1. by rewrite alter_app_r.
Qed.

Lemma excluded_heading_keeps_epic_open_witness :
  parse_lines (λ _, false)
    [py "## Core"; py "### US-1: First"; py "a";
     py "## Appendix A"; py "### US-2: Second"; py "b"]
  = [Epic (py "Core") [Story (py "US-1") (py "First") [py "a"];
                       Story (py "US-2") (py "Second") [py "b"]]].
Proof.
  refine (eq_trans (proj1 (proj2 (proj2
    (excluded_heading_keeps_epic_open (λ _, false)
       (py "## Appendix A") (py "Appendix A") (py "### US-2: Second")
       (py "US-2") (py "Second")
       [py "## Core"; py "### US-1: First"; py "a"] [py "b"] _ _ _)))) _).
  - by vm_compute.
  - right. by vm_compute.
  - by vm_compute.
  - by vm_compute.
Defined.





(** * Further properties *)

(** ** Parser *)

Section ParserMore.

Variable uni_alnum : N → bool.

Lemma open_epic_frame l (E F : list epic) cur :
  open_epic l (E ++ F) ((λ r, (length E + r)%nat) <$> cur)
  = (E ++ (open_epic l F cur).1,
     (λ r, (length E + r)%nat) <$> (open_epic l F cur).2).
Proof.
  unfold open_epic. destruct (epic_heading l); [|done].
  cbn [fst snd fmap option_fmap option_map].
  by rewrite <- app_assoc, length_app.
Qed.

(** Epics in front of the one [current_epic] refers to are carried along
    untouched. *)
Lemma parse_loop_frame lines (E F : list epic) cur :
  parse_loop uni_alnum lines (E ++ F) ((λ r, (length E + r)%nat) <$> cur)
  = E ++ parse_loop uni_alnum lines F cur.
Proof.
  remember (length lines) as n eqn:Hn.
  assert (length lines ≤ n)%nat as Hle by lia. clear Hn.
  revert lines F cur Hle.
  induction n as [|n IH]; intros [|l rest] F cur Hle; simpl in Hle;
    try lia; try done.
  rewrite !parse_loop_cons, open_epic_frame. cbn [fst snd].
  destruct (story_match uni_alnum l) as [[code ttl]|]; [|apply IH; lia].
  destruct (open_epic l F cur).2 as [r|]; [|apply (IH _ _ None); lia].
  cbn [fmap option_fmap option_map]. rewrite alter_app_r.
  apply (IH _ _ (Some r)).
  destruct (capture_app_decompose rest) as (_ & _ & ?). lia.
Qed.

Lemma parse_loop_epic_heading e n rest (E : list epic) cur :
  epic_heading e = Some n →
  parse_loop uni_alnum (e :: rest) E cur
  = E ++ parse_lines uni_alnum (e :: rest).
Proof.
  intros He. unfold parse_lines. rewrite !parse_loop_cons.
  rewrite !(open_epic_some _ _ _ _ He). cbn [fst snd].
  assert (story_match uni_alnum e = None) as ->.
  { unfold epic_heading in He. destruct (epic_match e) eqn:Em; [|done].
    by eapply epic_match_not_story. }
  rewrite <- (Nat.add_0_r (length E)).
  apply (parse_loop_frame rest E [Epic n []] (Some 0%nat)).
Qed.

Lemma parse_loop_app_epic l1 e n l2 (E : list epic) cur :
  epic_heading e = Some n →
  parse_loop uni_alnum (l1 ++ e :: l2) E cur
  = parse_loop uni_alnum l1 E cur ++ parse_lines uni_alnum (e :: l2).
Proof.
  intros He.
  remember (length l1) as k eqn:Hk.
  assert (length l1 ≤ k)%nat as Hle by lia. clear Hk.
  revert l1 E cur Hle.
  induction k as [|k IH]; intros [|l l1] E cur Hle; simpl in Hle;
    try lia; try by eapply parse_loop_epic_heading.
  cbn [app]. rewrite !parse_loop_cons.
  destruct (story_match uni_alnum l) as [[code ttl]|]; [|apply IH; lia].
  destruct (open_epic l E cur).2 as [r|]; [|apply IH; lia].
  destruct (capture_app_decompose l1) as (El & Hc & Hlen).
  destruct (capture l1).2 as [|x rem] eqn:Hrem.
  - rewrite app_nil_r in El. rewrite <- El in Hc.
    rewrite (capture_no_header _ _ Hc).
    rewrite capture_header by by eapply epic_heading_header.
    cbn [fst snd]. rewrite app_nil_r, <- El. cbn [parse_loop].
    by eapply parse_loop_epic_heading.
  - rewrite capture_app_l by by rewrite Hrem. rewrite Hrem. cbn [fst snd].
    apply (IH (x :: rem)). simpl in *. lia.
Qed.

Lemma story_windows_no_header c rest :
  Forall (λ l, is_header l = false) c →
  story_windows uni_alnum (c ++ rest) = story_windows uni_alnum rest.
Proof.
  induction 1 as [|l c Hl _ IH]; [done|]. cbn [app story_windows].
  destruct (story_match uni_alnum l) as [[??]|] eqn:E; [|done].
  apply story_match_header in E. congruence.
Qed.

Lemma parse_loop_section body n (ss : list story) :
  Forall (λ l, epic_heading l = None) body →
  parse_loop uni_alnum body [Epic n ss] (Some 0%nat)
  = [Epic n (ss ++ story_windows uni_alnum body)].
Proof.
  remember (length body) as k eqn:Hk.
  assert (length body ≤ k)%nat as Hle by lia. clear Hk.
  revert body ss Hle.
  induction k as [|k IH]; intros [|l rest] ss Hle Hb; simpl in Hle;
    try lia; try (by rewrite app_nil_r).
  apply Forall_cons in Hb as [Hl Hrest].
  rewrite parse_loop_cons, (open_epic_none _ _ _ Hl). cbn [fst snd story_windows].
  destruct (story_match uni_alnum l) as [[code ttl]|]; [|apply IH; [lia|done]].
  destruct (capture_app_decompose rest) as (El & Hc & Hlen).
  cbn [alter list_alter]. unfold push_story. cbn [name stories].
  rewrite IH; [|lia|].
  - rewrite <- app_assoc. cbn [app]. do 4 f_equal.
    transitivity (story_windows uni_alnum ((capture rest).1 ++ (capture rest).2));
      [|by rewrite <- El].
    by rewrite story_windows_no_header.
  - rewrite El in Hrest. by apply Forall_app in Hrest as [_ ?].
Qed.

Lemma story_match_code l c t :
  story_match uni_alnum l = Some (c, t) → ∃ code, c = US ++ code.
Proof.
  unfold story_match. repeat case_match; try done.
  intros [= <- _]. by eexists.
Qed.

Lemma strip_code code : startswith US (strip (US ++ code)) = true.
Proof.
  change (US ++ code) with ([] ++ 85 :: [83] ++ 45 :: code).
  by rewrite strip_middle.
Qed.

Lemma parse_loop_stories_ok lines (epics : list epic) cur :
  Forall (λ e, Forall (λ st, Forall (λ l, is_header l = false) (content st)
                           ∧ startswith US (id_code st) = true)
                      (stories e)) epics →
  Forall (λ e, Forall (λ st, Forall (λ l, is_header l = false) (content st)
                           ∧ startswith US (id_code st) = true)
                      (stories e))
         (parse_loop uni_alnum lines epics cur).
Proof.
  remember (length lines) as k eqn:Hk.
  assert (length lines ≤ k)%nat as Hle by lia. clear Hk.
  revert lines epics cur Hle.
  induction k as [|k IH]; intros [|l rest] epics cur Hle Hok; simpl in Hle;
    try lia; try done.
  rewrite parse_loop_cons.
  assert (Forall (λ e, Forall (λ st, Forall (λ l, is_header l = false) (content st)
                           ∧ startswith US (id_code st) = true)
                      (stories e)) (open_epic l epics cur).1) as Hok1.
  { unfold open_epic. destruct (epic_heading l); [|done]. cbn [fst].
    apply Forall_app. split; [done|]. by repeat constructor. }
  destruct (story_match uni_alnum l) as [[code ttl]|] eqn:Hs; [|apply IH; [lia|done]].
  destruct (open_epic l epics cur).2 as [r|]; [|apply IH; [lia|done]].
  destruct (capture_app_decompose rest) as (_ & Hc & Hlen).
  apply IH; [lia|].
  apply Forall_alter; [done|]. intros e _ He. unfold push_story. cbn [stories].
  apply Forall_app. split; [done|]. constructor; [|done]. cbn [content id_code].
  split; [done|]. apply story_match_code in Hs as [c' ->]. apply strip_code.
Qed.

End ParserMore.

(** X1.  A document without a line that opens an epic parses to no epic
    at all, whatever story headings it has; the run then writes nothing:
    it only clears the directory. *)
Theorem no_epic_no_output
    (uni_alnum : N → bool) (clock : nat → str) (source : str) (w : world) :
  Forall (λ l, epic_heading l = None) (split_nl source) →
  parse_user_stories uni_alnum source = []
  ∧ main uni_alnum clock source w = World (clear (files w)) (ticks w) (calls w).
Proof.
  intros H.
  assert (parse_user_stories uni_alnum source = []) as E.
  { unfold parse_user_stories, parse_lines.
    rewrite <- (app_nil_r (split_nl source)). by rewrite parse_loop_skip_all. }
  split; [done|]. rewrite main_spec, E. cbn [emission_order write_all length].
  by rewrite Nat.add_0_r, app_nil_r.
Qed.

Lemma no_epic_no_output_witness :
  parse_user_stories (λ _, false)
    (join_nl [py "# Title"; py "### US-1: Orphan"; py "text";
              py "## Table of Contents"]) = [].
Proof.
  refine (proj1 (no_epic_no_output (λ _, false) (λ _, [])
    (join_nl [py "# Title"; py "### US-1: Orphan"; py "text";
              py "## Table of Contents"]) (World ∅ 0 []) _)).
  vm_compute. repeat constructor.
Defined.

(** X2.  A line that opens an epic cuts the document in two parts that
    parse on their own: the epics of the whole are those of the lines
    before it followed by those of the lines from it on. *)
Theorem epic_sections_parse_independently
    (uni_alnum : N → bool) (l1 l2 : list str) (e n : str) :
  epic_heading e = Some n →
  parse_lines uni_alnum (l1 ++ e :: l2)
  = parse_lines uni_alnum l1 ++ parse_lines uni_alnum (e :: l2).
Proof. intros He. by eapply parse_loop_app_epic. Qed.

Lemma epic_sections_parse_independently_witness :
  parse_lines (λ _, false)
    ([py "## One"; py "### US-1: A"; py "a"] ++ py "## Two" :: [py "### US-2: B"])
  = parse_lines (λ _, false) [py "## One"; py "### US-1: A"; py "a"]
    ++ parse_lines (λ _, false) [py "## Two"; py "### US-2: B"].
Proof.
  apply (epic_sections_parse_independently (λ _, false)
           [py "## One"; py "### US-1: A"; py "a"] [py "### US-2: B"]
           (py "## Two") (py "Two")).
  by vm_compute.
Defined.

(** X3.  An epic heading followed by lines that open no other epic gives
    one epic, named by the heading, whose stories are the story headings
    of those lines in order, each with the lines up to the next header as
    content: consecutive story headings all land under that epic, and a
    heading of any depth ends the story before it. *)
Theorem epic_section_stories
    (uni_alnum : N → bool) (e n : str) (body : list str) :
  epic_heading e = Some n →
  Forall (λ l, epic_heading l = None) body →
  parse_lines uni_alnum (e :: body) = [Epic n (story_windows uni_alnum body)].
Proof.
  intros He Hb. unfold parse_lines. rewrite parse_loop_cons.
  rewrite (open_epic_some _ _ _ _ He). cbn [fst snd length app].
  assert (story_match uni_alnum e = None) as ->.
  { unfold epic_heading in He. destruct (epic_match e) eqn:Em; [|done].
    by eapply epic_match_not_story. }
  by rewrite parse_loop_section.
Qed.

Lemma epic_section_stories_witness :
  parse_lines (λ _, false)
    [py "## Core"; py "### US-1: First"; py "a"; py "### US-2: Second";
     py "b"; py "#### Notes"; py "dropped"]
  = [Epic (py "Core") [Story (py "US-1") (py "First") [py "a"];
                       Story (py "US-2") (py "Second") [py "b"]]].
Proof.
  refine (eq_trans (epic_section_stories (λ _, false) (py "## Core") (py "Core")
    [py "### US-1: First"; py "a"; py "### US-2: Second";
     py "b"; py "#### Notes"; py "dropped"] _ _) _).
  - by vm_compute.
  - vm_compute. repeat constructor.
  - by vm_compute.
Defined.

(** X4.  In every parsed document, no story holds a line that starts with
    two markers (such a line always ends the story), and every story code
    starts with [US-]. *)
Theorem stories_hold_no_header (uni_alnum : N → bool) (source : str) :
  Forall (λ e, Forall (λ st, Forall (λ l, is_header l = false) (content st)
                           ∧ startswith US (id_code st) = true)
                      (stories e))
         (parse_user_stories uni_alnum source).
Proof. by apply parse_loop_stories_ok. Qed.

(** ** Body transformer *)

Lemma join_split_nl s : join_nl (split_nl s) = s.
Proof.
  induction s as [|c s IH]; [done|]. cbn [split_nl].
  destruct (split_nl s) as [|w ws] eqn:E; [by apply split_nl_nonempty in E|].
  destruct (N.eqb_spec c NL) as [->|_].
  - rewrite join_nl_cons. by rewrite IH.
  - rewrite join_nl_cons_tail in IH. rewrite join_nl_cons_tail.
    cbn [app]. by rewrite IH.
Qed.

Lemma split_nl_lines s : Forall (λ l, NL ∉ l) (split_nl s).
Proof.
  induction s as [|c s IH]; cbn [split_nl].
  - repeat constructor. apply not_elem_of_nil.
  - destruct (N.eqb_spec c NL) as [->|Hc].
    + constructor; [apply not_elem_of_nil|done].
    + destruct (split_nl s) as [|w ws].
      { repeat constructor. apply not_elem_of_cons.
        split; [congruence|apply not_elem_of_nil]. }
      apply Forall_cons in IH as [Hw Hws]. constructor; [|done].
      apply not_elem_of_cons. split; [congruence|done].
Qed.

Lemma split_nl_substring s l : l ∈ split_nl s → ∃ a b, s = a ++ l ++ b.
Proof.
  intros (l1 & l2 & E)%list_elem_of_split.
  rewrite <- (join_split_nl s), E, join_nl_app, join_nl_cons_tail.
  by eexists _, _.
Qed.

Lemma strip_substring s : ∃ u v, s = u ++ strip s ++ v.
Proof.
  destruct (drop_while_suffix is_space s) as (u & Eu & _).
  destruct (rstrip_prefix (lstrip s)) as (v & Ev & _).
  exists u, v. unfold strip. by rewrite <- Ev.
Qed.

Lemma contains_false_substring p a s b :
  contains p (a ++ s ++ b) = false → contains p s = false.
Proof.
  intros H. destruct (contains p s) eqn:E; [|done].
  apply contains_inv in E as (x & y & ->).
  rewrite <- H. symmetry.
  replace (a ++ (x ++ p ++ y) ++ b) with ((a ++ x) ++ p ++ (y ++ b))
    by (by rewrite <- !app_assoc).
  apply contains_app.
Qed.

Lemma process_lines_no_marker lines :
  Forall (λ l, contains AC_MARKER l = false) lines →
  process_lines false lines = lines.
Proof.
  induction 1 as [|l lines Hl _ IH]; [done|]. cbn [process_lines andb].
  by rewrite Hl, IH.
Qed.

Lemma existsb_no_marker lines :
  Forall (λ l, contains AC_MARKER l = false) lines →
  existsb (contains AC_MARKER) lines = false.
Proof. induction 1 as [|l lines Hl _ IH]; [done|]. simpl. by rewrite Hl. Qed.

Lemma replace_first_no_nl s :
  NL ∉ s → NL ∉ replace_first BULLET CHECKBOX s.
Proof.
  induction s as [|c s IH]; intros Hs; rewrite replace_first_unfold.
  - change (startswith BULLET []) with false. apply not_elem_of_nil.
  - destruct (startswith BULLET (c :: s)).
    + intros [H|H]%elem_of_app.
      { revert H. apply (bool_decide_unpack _). by vm_compute. }
      apply Hs. eapply elem_of_sublist; [done|]. apply sublist_drop.
    + apply not_elem_of_cons in Hs as [Hc Hs'].
      apply not_elem_of_cons. split; [done|by apply IH].
Qed.

Lemma process_lines_no_nl b lines :
  Forall (λ l, NL ∉ l) lines → Forall (λ l, NL ∉ l) (process_lines b lines).
Proof.
  intros H. revert b. induction H as [|l lines Hl _ IH]; intros b; [done|].
  cbn [process_lines].
  destruct (contains AC_MARKER l); [constructor; [|done]|].
  - apply (bool_decide_unpack _). by vm_compute.
  - destruct (b && startswith BULLET (strip l)); constructor; try done.
    by apply replace_first_no_nl.
Qed.

(** X5.  A story whose text nowhere has the marker is only trimmed: its
    bullets are left as they are. *)
Theorem body_without_marker_is_trimmed (content : list str) :
  contains AC_MARKER (join_nl content) = false →
  story_body content = strip (join_nl content).
Proof.
  intros H. unfold story_body. cbn zeta.
  rewrite process_lines_no_marker; [apply join_split_nl|].
  apply Forall_forall. intros l (a & b & E)%split_nl_substring.
  destruct (strip_substring (join_nl content)) as (u & v & Es).
  rewrite Es, E in H.
  apply contains_false_substring in H. by apply contains_false_substring in H.
Qed.

Lemma body_without_marker_is_trimmed_witness :
  story_body [[]; py "As a user"; py "- I want a list"; py "  "]
  = join_nl [py "As a user"; py "- I want a list"].
Proof.
  refine (eq_trans (body_without_marker_is_trimmed
    [[]; py "As a user"; py "- I want a list"; py "  "] _) _);
    by vm_compute.
Defined.

(** X6.  The lines in front of the first marker line are kept as they
    are, bullets included: the checklist starts at the marker. *)
Theorem lines_before_marker_unchanged (content pre rest : list str) (m : str) :
  split_nl (strip (join_nl content)) = pre ++ m :: rest →
  Forall (λ l, contains AC_MARKER l = false) pre →
  contains AC_MARKER m = true →
  story_body content = join_nl (pre ++ AC_HEADING :: process_lines true rest).
Proof.
  intros Hs Hpre Hm. unfold story_body. cbn zeta.
  rewrite Hs, process_lines_app, process_lines_no_marker by done.
  by rewrite process_lines_marker.
Qed.

Lemma lines_before_marker_unchanged_witness :
  story_body [py "Steps:"; py "- open"; py "**Acceptance Criteria:**"; py "- done"]
  = join_nl [py "Steps:"; py "- open"; py "## Acceptance Criteria"; py "- [ ] done"].
Proof.
  refine (eq_trans (lines_before_marker_unchanged
    [py "Steps:"; py "- open"; py "**Acceptance Criteria:**"; py "- done"]
    [py "Steps:"; py "- open"] [py "- done"] (py "**Acceptance Criteria:**")
    _ _ _) _).
  - by vm_compute.
  - by repeat constructor.
  - by vm_compute.
  - by vm_compute.
Defined.

(** X7.  The transformer works line by line: the lines of the body it
    returns are the rewritten lines of the trimmed text, one for one, so
    no line is added, dropped, split or merged. *)
Theorem body_is_rewritten_line_by_line (content : list str) :
  split_nl (story_body content)
  = process_lines false (split_nl (strip (join_nl content)))
  ∧ length (split_nl (story_body content))
    = length (split_nl (strip (join_nl content))).
Proof.
  assert (split_nl (story_body content)
          = process_lines false (split_nl (strip (join_nl content)))) as E.
  { unfold story_body. cbn zeta. apply split_nl_join.
    - apply process_lines_no_nl, split_nl_lines.
    - intros H. apply (f_equal length) in H.
      rewrite process_lines_length in H.
      destruct (split_nl (strip (join_nl content))) eqn:E;
        [by apply split_nl_nonempty in E|done]. }
  split; [done|]. by rewrite E, process_lines_length.
Qed.

(** ** Emitter *)



Lemma dec_digits n : Forall (λ c, 48 ≤ c ≤ 57) (dec n).
Proof.
  unfold dec. generalize (Nat.to_uint n). intros d.
  induction d; cbn [NilEmpty.string_of_uint py list_ascii_of_string fmap list_fmap];
    [done|constructor; [by vm_compute|done]..].
Qed.








(** X9.  A run neither removes nor changes a file of the directory whose
    name does not both start with [task-] and end with [.md]. *)
Theorem other_files_are_untouched
    (uni_alnum : N → bool) (clock : nat → str) (source : str) (w : world)
    (f : str) :
  is_generated f = false →
  files (main uni_alnum clock source w) !! f = files w !! f.
Proof.
  intros Hf. rewrite main_spec. cbn [files].
  rewrite write_all_other by done. by apply clear_other.
Qed.

Lemma other_files_are_untouched_witness :
  files (main (λ _, false) (λ _, []) doc_alpha
           (World {[py "README.md" := py "keep"; py "task-3 - Old.md" := []]} 0 []))
    !! py "README.md" = Some (py "keep").
Proof.
  refine (eq_trans (other_files_are_untouched (λ _, false) (λ _, []) doc_alpha
    (World {[py "README.md" := py "keep"; py "task-3 - Old.md" := []]} 0 [])
    (py "README.md") _) _); by vm_compute.
Defined.

(** X10.  Whatever the title, the name of a written file has none of the
    nine characters that line 60 removes, so no path separator: the file
    is created in the destination directory itself, under a name the
    clear step of the next run recognises. *)
Theorem filename_is_safe (t : Task.t) :
  Forall (λ c, c ∉ FORBIDDEN) (filename t)
  ∧ is_generated (filename t) = true.
Proof.
  split; [|apply is_generated_filename].
  unfold filename. rewrite !Forall_app. split_and!.
  - apply (bool_decide_unpack _). by vm_compute.
  - eapply Forall_impl; [apply dec_digits|]. intros c Hc. simpl in Hc.
    unfold FORBIDDEN. rewrite !not_elem_of_cons. split_and!; try lia.
    apply not_elem_of_nil.
  - apply (bool_decide_unpack _). by vm_compute.
  - unfold filename_title. apply Forall_forall. by intros c [? _]%list_elem_of_filter.
  - apply (bool_decide_unpack _). by vm_compute.
Qed.



(** ** A newline at the end of the document *)

Lemma strip_snoc_space s c : is_space c = true → strip (s ++ [c]) = strip s.
Proof.
  intros Hc. induction s as [|a s IH].
  - unfold strip, lstrip. cbn [app drop_while]. by rewrite Hc.
  - unfold strip, lstrip in *. cbn [app drop_while].
    destruct (is_space a) eqn:Ha; [done|].
    unfold rstrip. rewrite app_comm_cons, reverse_app. cbn [reverse rev_append app drop_while].
    change (rev_append [c] []) with [c]. cbn [app drop_while]. by rewrite Hc.
Qed.

Lemma story_body_snoc_blank (c : list str) : story_body (c ++ [[]]) = story_body c.
Proof.
  unfold story_body. cbn zeta. rewrite join_nl_app.
  destruct c as [|x c]; [done|].
  change (join_nl [[]]) with (@nil N). rewrite app_nil_r.
  by rewrite strip_snoc_space.
Qed.

Lemma story_tasks_rendered e c (ss1 ss2 : list story) :
  (λ s, (id_code s, title s, story_body (content s))) <$> ss1
  = (λ s, (id_code s, title s, story_body (content s))) <$> ss2 →
  story_tasks e c ss1 = story_tasks e c ss2.
Proof.
  revert c ss2. induction ss1 as [|s1 ss1 IH]; intros c [|s2 ss2] H;
    try done.
  rewrite !fmap_cons in H. injection H as H1 H2 H3 H.
  cbn [story_tasks]. unfold story_task. rewrite H1, H2, H3. f_equal. by apply IH.
Qed.

(** The emitter reads of the epics what [rendered] keeps. *)
Lemma emission_order_rendered c (es1 es2 : list epic) :
  rendered <$> es1 = rendered <$> es2 →
  emission_order c es1 = emission_order c es2.
Proof.
  revert c es2. induction es1 as [|e1 es1 IH]; intros c [|e2 es2] H; try done.
  rewrite !fmap_cons in H. injection H as Hn Hs H.
  cbn [emission_order]. unfold epic_task. rewrite Hn.
  rewrite (story_tasks_rendered _ _ _ _ Hs).
  apply (f_equal length) in Hs as Hl. rewrite !length_fmap in Hl. rewrite Hl.
  do 2 f_equal. by apply IH.
Qed.

Lemma rendered_alter_push st1 st2 r (E1 E2 : list epic) :
  rendered <$> E1 = rendered <$> E2 →
  id_code st1 = id_code st2 → title st1 = title st2 →
  story_body (content st1) = story_body (content st2) →
  rendered <$> alter (push_story st1) r E1
  = rendered <$> alter (push_story st2) r E2.
Proof.
  intros H Hi Ht Hb. revert r E2 H.
  induction E1 as [|e1 E1 IH]; intros r [|e2 E2] H; try done.
  rewrite !fmap_cons in H. injection H as Hn Hs H.
  destruct r as [|r]; cbn [alter list_alter]; rewrite !fmap_cons.
  - f_equal; [|done]. unfold rendered, push_story. cbn [name stories].
    rewrite !fmap_app, Hn, Hs. cbn [fmap list_fmap]. by rewrite Hi, Ht, Hb.
  - f_equal; [unfold rendered; by rewrite Hn, Hs|by apply IH].
Qed.

Lemma rendered_open_epic l (E1 E2 : list epic) cur :
  rendered <$> E1 = rendered <$> E2 →
  rendered <$> (open_epic l E1 cur).1 = rendered <$> (open_epic l E2 cur).1
  ∧ (open_epic l E1 cur).2 = (open_epic l E2 cur).2.
Proof.
  intros H. apply (f_equal length) in H as Hl. rewrite !length_fmap in Hl.
  unfold open_epic. destruct (epic_heading l); cbn [fst snd]; [|done].
  by rewrite !fmap_app, H, Hl.
Qed.

Lemma parse_loop_snoc_blank uni_alnum lines (E1 E2 : list epic) cur :
  rendered <$> E1 = rendered <$> E2 →
  rendered <$> parse_loop uni_alnum (lines ++ [[]]) E1 cur
  = rendered <$> parse_loop uni_alnum lines E2 cur.
Proof.
  remember (length lines) as k eqn:Hk.
  assert (length lines ≤ k)%nat as Hle by lia. clear Hk.
  revert lines E1 E2 cur Hle.
  assert (∀ (E1 E2 : list epic) cur, rendered <$> E1 = rendered <$> E2 →
            rendered <$> parse_loop uni_alnum [[]] E1 cur = rendered <$> E2) as Hnil.
  { intros E1 E2 cur H. by rewrite parse_loop_cons. }
  induction k as [|k IH]; intros [|l rest] E1 E2 cur Hle H; simpl in Hle;
    try lia; try by apply Hnil.
  cbn [app]. rewrite !parse_loop_cons.
  destruct (rendered_open_epic l E1 E2 cur H) as [H1 ->].
  destruct (story_match uni_alnum l) as [[code ttl]|]; [|apply IH; [lia|done]].
  destruct (open_epic l E2 cur).2 as [r|]; [|apply IH; [lia|done]].
  destruct (capture_app_decompose rest) as (El & Hc & Hlen).
  destruct (capture rest).2 as [|x rem] eqn:Hrem.
  - rewrite app_nil_r in El. rewrite <- El in Hc.
    rewrite (capture_no_header _ _ Hc). cbn [capture is_header fst snd].
    change (is_header []) with false. cbn [fst snd parse_loop].
    rewrite <- El. apply rendered_alter_push; try done.
    cbn [content]. apply story_body_snoc_blank.
  - rewrite capture_app_l by by rewrite Hrem. rewrite Hrem. cbn [fst snd].
    apply (IH (x :: rem)); [simpl in *; lia|].
    by apply rendered_alter_push.
Qed.

(** X12.  A newline at the very end of the source file changes nothing:
    the run makes the same calls and leaves the same directory.  (The
    parser does see one more, empty, line; where a story takes it up, the
    trimming of the body drops it again.) *)
Theorem final_newline_is_immaterial
    (uni_alnum : N → bool) (clock : nat → str) (source : str) (w : world) :
  main uni_alnum clock (source ++ [NL]) w = main uni_alnum clock source w.
Proof.
  rewrite !main_spec.
  assert (emission_order 1 (parse_user_stories uni_alnum (source ++ [NL]))
          = emission_order 1 (parse_user_stories uni_alnum source)) as ->; [|done].
  apply emission_order_rendered. unfold parse_user_stories, parse_lines.
  rewrite split_nl_app. by apply parse_loop_snoc_blank.
Qed.

(** ** Titles *)

Lemma take_while_not_nl s : NL ∉ take_while not_nl s.
Proof.
  induction s as [|c s IH]; cbn [take_while]; [apply not_elem_of_nil|].
  unfold not_nl at 1. destruct (N.eqb_spec c NL) as [|Hc]; cbn [negb].
  - apply not_elem_of_nil.
  - apply not_elem_of_cons. split; [congruence|done].
Qed.

Lemma take_while_code_char uni_alnum s :
  NL ∉ take_while (is_code_char uni_alnum) s.
Proof.
  induction s as [|c s IH]; cbn [take_while]; [apply not_elem_of_nil|].
  destruct (is_code_char uni_alnum c) eqn:Hc; [|apply not_elem_of_nil].
  apply not_elem_of_cons. split; [|done].
  intros <-. vm_compute in Hc. done.
Qed.

Lemma strip_no_nl s : NL ∉ s → (NL ∉ strip s).
Proof.
  intros H Hin. apply H. destruct (strip_substring s) as (u & v & E).
  rewrite E. apply elem_of_app. right. apply elem_of_app. by left.
Qed.

Lemma epic_heading_no_nl l n : epic_heading l = Some n → NL ∉ n.
Proof.
  unfold epic_heading, epic_match. repeat case_match; try done.
  intros [= <-]. simplify_eq. apply strip_no_nl, take_while_not_nl.
Qed.

Lemma story_match_no_nl uni_alnum l c t :
  story_match uni_alnum l = Some (c, t) → (NL ∉ strip c) ∧ (NL ∉ strip t).
Proof.
  unfold story_match. repeat case_match; try done.
  intros [= <- <-]. split; apply strip_no_nl.
  - intros Hin. do 3 (apply elem_of_cons in Hin as [?|Hin]; [done|]).
    match goal with E : take_while _ _ = _ |- _ => rewrite <- E in Hin end.
    by apply take_while_code_char in Hin.
  - apply take_while_not_nl.
Qed.

Lemma parse_loop_single_line uni_alnum lines (epics : list epic) cur :
  Forall (λ e, (NL ∉ name e)
               ∧ Forall (λ st, (NL ∉ id_code st) ∧ (NL ∉ title st)) (stories e))
         epics →
  Forall (λ e, (NL ∉ name e)
               ∧ Forall (λ st, (NL ∉ id_code st) ∧ (NL ∉ title st)) (stories e))
         (parse_loop uni_alnum lines epics cur).
Proof.
  remember (length lines) as k eqn:Hk.
  assert (length lines ≤ k)%nat as Hle by lia. clear Hk.
  revert lines epics cur Hle.
  induction k as [|k IH]; intros [|l rest] epics cur Hle Hok; simpl in Hle;
    try lia; try done.
  rewrite parse_loop_cons.
  assert (Forall (λ e, (NL ∉ name e)
               ∧ Forall (λ st, (NL ∉ id_code st) ∧ (NL ∉ title st)) (stories e))
            (open_epic l epics cur).1) as Hok1.
  { unfold open_epic. destruct (epic_heading l) eqn:He; [|done]. cbn [fst].
    apply Forall_app. split; [done|]. repeat constructor.
    by eapply epic_heading_no_nl. }
  destruct (story_match uni_alnum l) as [[code ttl]|] eqn:Hs; [|apply IH; [lia|done]].
  destruct (open_epic l epics cur).2 as [r|]; [|apply IH; [lia|done]].
  destruct (capture_app_decompose rest) as (_ & _ & Hlen).
  apply IH; [lia|].
  apply Forall_alter; [done|]. intros e _ [Hn Hss]. unfold push_story.
  cbn [name stories]. split; [done|].
  apply Forall_app. split; [done|]. constructor; [|done].
  by eapply story_match_no_nl.
Qed.

Lemma emission_order_single_line c (es : list epic) :
  Forall (λ e, (NL ∉ name e)
               ∧ Forall (λ st, (NL ∉ id_code st) ∧ (NL ∉ title st)) (stories e)) es →
  Forall (λ t, (NL ∉ Task.title t)) (emission_order c es).
Proof.
  intros H. revert c. induction H as [|e es [Hn Hss] _ IH]; intros c; [constructor|].
  cbn [emission_order]. constructor; [done|]. apply Forall_app. split; [|apply IH].
  generalize (S c). induction Hss as [|s ss [Hi Ht] _ IHs]; intros k; constructor;
    [|apply IHs].
  cbn [story_task Task.title]. intros [H|H]%elem_of_app; [done|].
  apply elem_of_cons in H as [H|H]; [done|done].
Qed.

(** X13.  Every title handed to [create_task_file] is a single line, so
    the [title:] line of the metadata block is never broken in two by the
    title itself. *)
Theorem titles_are_single_line
    (uni_alnum : N → bool) (clock : nat → str) (source : str) (w : world) :
  ∃ T,
    calls (main uni_alnum clock source w) = calls w ++ T
    ∧ Forall (λ t, (NL ∉ Task.title t)) T.
Proof.
  eexists. split; [by rewrite main_spec|].
  apply emission_order_single_line. by apply parse_loop_single_line.
Qed.

(** X14.  The parsed epics are, in order, the lines of the document that
    open an epic, each named by its trimmed heading text: none is lost
    inside a story, and equal names give separate epics. *)
Theorem epics_are_the_accepted_headings (uni_alnum : N → bool) (source : str) :
  name <$> parse_user_stories uni_alnum source
  = omap epic_heading (split_nl source).
Proof. unfold parse_user_stories, parse_lines. by rewrite parse_loop_names. Qed.
